(** * The rustdoc sidebar index of [ink_lang]

    The artifact [target/doc/ink_lang/sidebar-items.js] is one line of
    JavaScript: a call of the global function [initSidebarItems] on an
    object literal that maps item kinds to arrays of [name, description]
    arrays.  This development embeds that line in Rocq: the fragment of
    JavaScript it is written in (literals, calls of global functions,
    and, so that their absence can be stated, reads and writes of
    globals, writes to objects and arrays, branching and loops), an
    evaluator for that fragment over a heap of mutable objects, and the
    file itself as a program of the fragment.  The function the file
    calls belongs to the page that loads it: it is a parameter, free to
    return, throw or never return, and to change the globals and the
    heap, the table it is handed included. *)

From Stdlib Require Import Sorting.Sorted.
From stdpp Require Import gmap strings list sorting.

Local Open Scope string_scope.
Local Open Scope list_scope.
Set Warnings "-register-all".

(** ** Values *)

(** The value of a literal, read as a whole: a tree of strings, arrays and
    objects.  An object is kept as its list of own properties in insertion
    order; an array as the list of its elements. *)
Inductive value : Type :=
| VUndef
| VStr (s : string)
| VArr (items : list value)
| VObj (props : list (string * value)).

(** Defining property [k] on a property list: an existing key keeps its
    position and takes the new value, a new key goes last.  This is the
    order of an object's own keys for the keys that [ordinary_key] below
    accepts; the evaluator uses it for no others. *)
Fixpoint obj_set {A : Type} (k : string) (v : A) (ps : list (string * A))
  : list (string * A) :=
  match ps with
  | [] => [(k, v)]
  | (k', v') :: ps' =>
      if String.eqb k k' then (k, v) :: ps' else (k', v') :: obj_set k v ps'
  end.

Fixpoint props_get {A : Type} (k : string) (ps : list (string * A)) : option A :=
  match ps with
  | [] => None
  | (k', v) :: ps' => if String.eqb k k' then Some v else props_get k ps'
  end.

(** [t[k]] for a string key: the own property, if [t] is an object that
    has it. *)
Definition obj_get (t : value) (k : string) : option value :=
  match t with
  | VObj ps => props_get k ps
  | _ => None
  end.

(** [Object.keys(t)]. *)
Definition obj_keys (t : value) : list string :=
  match t with
  | VObj ps => ps.*1
  | _ => []
  end.

Definition arr_items (v : value) : option (list value) :=
  match v with
  | VArr vs => Some vs
  | _ => None
  end.

(** [a[i]] for an array index. *)
Definition arr_get (v : value) (i : nat) : option value :=
  match v with
  | VArr vs => vs !! i
  | _ => None
  end.

Definition str_of (v : value) : option string :=
  match v with
  | VStr s => Some s
  | _ => None
  end.

(** A key that an object literal stores as an own property, listed in the
    order written: any string but ["__proto__"], which sets the prototype
    instead, and the strings of digits, which an object lists first and in
    numeric order. *)
Definition is_digit (c : Ascii.ascii) : bool :=
  let n := Ascii.N_of_ascii c in (48 <=? n)%N && (n <=? 57)%N.

Fixpoint all_digits (k : string) : bool :=
  match k with
  | EmptyString => true
  | String c k' => is_digit c && all_digits k'
  end.

Definition ordinary_key (k : string) : bool :=
  negb (String.eqb k "__proto__")
  && negb (negb (String.eqb k "") && all_digits k).

(** ** Syntax *)

Inductive expr : Type :=
| EStr (s : string)                          (* "..." *)
| EArr (elems : list expr)                   (* [e, ...] *)
| EObj (fields : list (string * expr))       (* {"k": e, ...} *)
| EVar (x : string)                          (* x *)
| ECall (f : string) (args : list expr)      (* f(e, ...) *)
| EAssign (x : string) (e : expr)            (* x = e *)
| ESet (o : expr) (k : string) (e : expr)    (* o["k"] = e *)
| EIdxSet (o : expr) (i : nat) (e : expr).   (* o[i] = e *)

Inductive stmt : Type :=
| SExpr (e : expr)                        (* e; *)
| SIf (c : expr) (thn els : list stmt)    (* if (c) {...} else {...} *)
| SWhile (c : expr) (body : list stmt).   (* while (c) {...} *)

(** Induction on expressions that reaches the expressions nested in
    lists. *)
Fixpoint expr_nested_ind (P : expr -> Prop)
    (HStr : forall s, P (EStr s))
    (HArr : forall es, Forall P es -> P (EArr es))
    (HObj : forall fs, Forall (fun kv => P kv.2) fs -> P (EObj fs))
    (HVar : forall x, P (EVar x))
    (HCall : forall f args, Forall P args -> P (ECall f args))
    (HAssign : forall x e, P e -> P (EAssign x e))
    (HSet : forall o k e, P o -> P e -> P (ESet o k e))
    (HIdxSet : forall o i e, P o -> P e -> P (EIdxSet o i e))
    (e : expr) {struct e} : P e :=
  let rec := expr_nested_ind P HStr HArr HObj HVar HCall HAssign HSet HIdxSet in
  match e with
  | EStr s => HStr s
  | EArr es =>
      HArr es ((fix all (l : list expr) : Forall P l :=
                  match l with
                  | [] => Forall_nil_2 P
                  | x :: l' => Forall_cons_2 P x l' (rec x) (all l')
                  end) es)
  | EObj fs =>
      HObj fs ((fix all (l : list (string * expr)) : Forall (fun kv => P kv.2) l :=
                  match l with
                  | [] => Forall_nil_2 _
                  | kv :: l' => Forall_cons_2 _ kv l' (rec kv.2) (all l')
                  end) fs)
  | EVar x => HVar x
  | ECall f args =>
      HCall f args ((fix all (l : list expr) : Forall P l :=
                       match l with
                       | [] => Forall_nil_2 P
                       | x :: l' => Forall_cons_2 P x l' (rec x) (all l')
                       end) args)
  | EAssign x e1 => HAssign x e1 (rec e1)
  | ESet o k e1 => HSet o k e1 (rec o) (rec e1)
  | EIdxSet o i e1 => HIdxSet o i e1 (rec o) (rec e1)
  end.

(** ** The file *)

(** One sidebar entry: [["name","description"]]. *)
Definition item (name desc : string) : expr := EArr [EStr name; EStr desc].

(** The object literal of the file, key by key and entry by entry in the
    order of the text. *)
Definition table_lit : expr :=
  EObj [
    ("attr", EArr [
       item "contract" "" ]);
    ("enum", EArr [
       item "DispatchError" "A dispatch error.";
       item "DispatchMode" "The contract dispatch mode." ]);
    ("struct", EArr [
       item "Contract" "The contract definition.";
       item "ContractBuilder" "Simplifies declaration of a smart contract.";
       item "DispatchList" "A list of dispatchers.";
       item "DispatchRetCode" "A return code indicating success or error in a compact form.";
       item "Dispatcher" "Dispatcher for storage preserving messages.";
       item "DispatcherMut" "Dispatcher for potentially storage mutating messages and constructors.";
       item "EnvAccess" "A typed accessor to the environment.";
       item "UnreachableDispatcher" "A dispatcher that shall never dispatch." ]);
    ("trait", EArr [
       item "Dispatch" "Types implementing this trait can handle contract calls.";
       item "DispatchUsingMode" "Trait implemented by contracts themselves in order to provide a clean interface for the C-ABI specified `call` and `create` functions to forward calls to.";
       item "Env" "Allows to directly access the environment mutably.";
       item "FnInput" "Dispatchable functions that have inputs.";
       item "FnOutput" "Dispatchable functions that have an output.";
       item "FnSelector" "The selector of dispatchable functions.";
       item "ForwardCall" "Implemented by contracts that are compiled as dependencies.";
       item "ForwardCallMut" "Implemented by contracts that are compiled as dependencies.";
       item "GenerateAbi" "Types implementing this trait can generate their metadata.";
       item "InstantiateTestable" "Trait implemented by contracts to make them testable.";
       item "Message" "Types implementing this are messages that may only read from storage.";
       item "PushDispatcher" "Types able to push another dispatcher to themselves.";
       item "Storage" "Types implementing this trait are storage structs.";
       item "ToAccountId" "Implemented by contracts that are compiled as dependencies." ]);
    ("type", EArr [
       item "DispatchResult" "A dispatch result.";
       item "DispatchableFn" "A function with the signature able to handle storage preserving calls of messages or constructors.";
       item "DispatchableFnMut" "A function with the signature able to handle potentially storage mutating calls of messages or constructors.";
       item "EmptyDispatchList" "A simple type definition to view the single unreachable dispatcher as list." ])
  ].

(** [initSidebarItems({...});] *)
Definition sidebar_items_js : list stmt :=
  [SExpr (ECall "initSidebarItems" [table_lit])].

(** ** The table *)

(** The value a literal denotes: strings, and arrays and objects of
    literals, the properties of an object defined one after the other.
    Anything else is not a literal, and an object literal with a key that
    is not ordinary is left out.  [lv] gives the value of one part. *)
Definition lit_items (lv : expr -> option value)
  : list expr -> option (list value) :=
  fix go (es : list expr) : option (list value) :=
    match es with
    | [] => Some []
    | e1 :: es' =>
        match lv e1, go es' with
        | Some v, Some vs => Some (v :: vs)
        | _, _ => None
        end
    end.

Definition lit_props (lv : expr -> option value)
  : list (string * expr) -> list (string * value) -> option (list (string * value)) :=
  fix go (fs : list (string * expr)) (acc : list (string * value))
    : option (list (string * value)) :=
    match fs with
    | [] => Some acc
    | (k, e1) :: fs' =>
        if ordinary_key k then
          match lv e1 with
          | Some v => go fs' (obj_set k v acc)
          | None => None
          end
        else None
    end.

Fixpoint lit_value (e : expr) : option value :=
  match e with
  | EStr str => Some (VStr str)
  | EArr es => VArr <$> lit_items lit_value es
  | EObj fs => VObj <$> lit_props lit_value fs []
  | _ => None
  end.

(** The value of the object literal of the file: what the argument of
    [initSidebarItems] reads as when the call is made. *)
Definition sidebar_table : value :=
  Eval vm_compute in default VUndef (lit_value table_lit).

(** ** Reading the table *)

(** The five item kinds rustdoc lists in this sidebar. *)
Definition categories : list string := ["attr"; "enum"; "struct"; "trait"; "type"].

(** A sidebar entry is an array [e]; its identifier is the string [e[0]]
    and its description the string [e[1]]. *)
Definition entry_ident (e : value) : option string :=
  arr_get e 0 ≫= str_of.

Definition entry_desc (e : value) : option string :=
  arr_get e 1 ≫= str_of.

(** The entries listed under a category, [t[k]]. *)
Definition entries (t : value) (k : string) : option (list value) :=
  obj_get t k ≫= arr_items.

(** The identifiers of a category, in the order listed; [None] when an
    entry has no string at index 0. *)
Definition idents (t : value) (k : string) : option (list string) :=
  entries t k ≫= mapM entry_ident.

(** The identifiers of the whole table, category after category. *)
Definition all_idents (t : value) : option (list string) :=
  mjoin <$> mapM (idents t) (obj_keys t).

(** ** Order on strings *)

(** The [<] of JavaScript on strings: code unit by code unit, a proper
    prefix coming first.  All strings of the file are ASCII, one code unit
    per character. *)
Fixpoint str_ltb (a b : string) : bool :=
  match a, b with
  | EmptyString, EmptyString => false
  | EmptyString, String _ _ => true
  | String _ _, EmptyString => false
  | String c a', String d b' =>
      let m := Ascii.N_of_ascii c in
      let n := Ascii.N_of_ascii d in
      if (m <? n)%N then true
      else if (n <? m)%N then false
      else str_ltb a' b'
  end.

Definition str_lt (a b : string) : Prop := str_ltb a b = true.

(** Adjacent elements in increasing order. *)
Fixpoint ascending (l : list string) : bool :=
  match l with
  | a :: (b :: _) as l' => str_ltb a b && ascending l'
  | _ => true
  end.

(** ** The heap *)

(** At run time arrays and objects live in a heap and are handed around by
    reference; a function is a value too, named by its handle in the code
    of the page. *)
Definition loc := nat.
Definition fn := nat.

Inductive rval : Type :=
| RUndef
| RStr (s : string)
| RRef (l : loc)
| RFun (f : fn).

Inductive object : Type :=
| OArr (items : list rval)
| OObj (props : list (string * rval)).

(** ToBoolean on the values of the fragment. *)
Definition truthy (v : rval) : bool :=
  match v with
  | RUndef => false
  | RStr s => negb (String.eqb s "")
  | RRef _ | RFun _ => true
  end.

(** The state a script runs in: the global bindings, the heap, the rest of
    the page, and the record of the calls the script has made. *)
Record state (W : Type) : Type := State {
  globals : gmap string rval;
  heap : list object;
  world : W;
  calls : list (string * list rval)
}.
Arguments State {W} globals heap world calls.
Arguments globals {W} s.
Arguments heap {W} s.
Arguments world {W} s.
Arguments calls {W} s.

Definition with_heap {W : Type} (s : state W) (h : list object) : state W :=
  State (globals s) h (world s) (calls s).

Definition with_calls {W : Type} (s : state W) (c : list (string * list rval))
  : state W :=
  State (globals s) (heap s) (world s) c.

(** What can be thrown: the two errors the fragment raises itself, an
    identifier that is not defined and a call of something that is not a
    function, and whatever a function of the page throws. *)
Inductive exn : Type :=
| ReferenceError (x : string)
| TypeError (x : string)
| Thrown (v : rval).

(** A call of a function of the page returns a value, throws, or never
    returns; in the first two cases it leaves a state, in which it may
    have changed the globals, the heap and the page. *)
Inductive call_result (W : Type) : Type :=
| Returns (v : rval) (s : state W)
| Throws (x : exn) (s : state W)
| NeverReturns.
Arguments Returns {W} v s.
Arguments Throws {W} x s.
Arguments NeverReturns {W}.

(** The result of an expression: a value, an exception, a call that hangs,
    or a construct the fragment gives no meaning to. *)
Inductive result (W A : Type) : Type :=
| Ok (a : A) (s : state W)
| Err (x : exn) (s : state W)
| Hang
| Unmodelled.
Arguments Ok {W A} a s.
Arguments Err {W A} x s.
Arguments Hang {W A}.
Arguments Unmodelled {W A}.

Inductive outcome (W : Type) : Type :=
| Finished (s : state W)
| Failed (x : exn) (s : state W)
| Hung
| Stuck
| OutOfFuel.
Arguments Finished {W} s.
Arguments Failed {W} x s.
Arguments Hung {W}.
Arguments Stuck {W}.
Arguments OutOfFuel {W}.

Definition bind {W A B : Type} (r : result W A) (k : A -> state W -> result W B)
  : result W B :=
  match r with
  | Ok a s => k a s
  | Err x s => Err x s
  | Hang => Hang
  | Unmodelled => Unmodelled
  end.

(** A new object goes to the end of the heap. *)
Definition alloc {W : Type} (o : object) (s : state W) : result W rval :=
  Ok (RRef (length (heap s))) (with_heap s (heap s ++ [o])).

(** The global names that are always bound and cannot be rebound; reading,
    calling or assigning them is left outside the fragment. *)
Definition fixed_global (x : string) : bool :=
  String.eqb x "undefined" || String.eqb x "NaN" || String.eqb x "Infinity".

(** ** Evaluation *)

Section Eval.
Context {W : Type}.

(** The code of the page: what each function handle does when called. *)
Variable page : fn -> list rval -> state W -> call_result W.

(** A list of expressions, left to right, each in the state the previous
    one left; [ev] evaluates one expression. *)
Definition eval_list (ev : expr -> state W -> result W rval)
  : list expr -> state W -> result W (list rval) :=
  fix go (es : list expr) (s : state W) : result W (list rval) :=
    match es with
    | [] => Ok [] s
    | e1 :: es' =>
        bind (ev e1 s) (fun v s1 =>
        bind (go es' s1) (fun vs s2 =>
        Ok (v :: vs) s2))
    end.

(** The properties of an object literal, left to right, each defined on
    the properties collected so far. *)
Definition eval_fields (ev : expr -> state W -> result W rval)
  : list (string * expr) -> list (string * rval) -> state W
    -> result W (list (string * rval)) :=
  fix go (fs : list (string * expr)) (acc : list (string * rval)) (s : state W)
    : result W (list (string * rval)) :=
    match fs with
    | [] => Ok acc s
    | (k, e1) :: fs' =>
        if ordinary_key k then
          bind (ev e1 s) (fun v s1 => go fs' (obj_set k v acc) s1)
        else Unmodelled
    end.

(** Calling what [f] was bound to, on the argument values [vs]: a function
    of the page runs and its completion is the completion of the call; the
    call is recorded; anything else is not callable. *)
Definition call (f : string) (c : rval) (vs : list rval) (s : state W)
  : result W rval :=
  match c with
  | RFun h =>
      match page h vs s with
      | Returns r s' => Ok r (with_calls s' (calls s ++ [(f, vs)]))
      | Throws x s' => Err x (with_calls s' (calls s ++ [(f, vs)]))
      | NeverReturns => Hang
      end
  | _ => Err (TypeError f) s
  end.

(** Writing to the object or array a reference points to.  A write to an
    object defines the property; a write to an array replaces an element
    or, at the index that is its length, appends one.  Writes through
    anything but a reference, to other keys and beyond the end of an array
    are outside the fragment. *)
Definition set_prop (vo : rval) (k : string) (v : rval) (s : state W)
  : result W rval :=
  match vo with
  | RRef l =>
      match heap s !! l with
      | Some (OObj ps) =>
          if ordinary_key k
          then Ok v (with_heap s (<[l := OObj (obj_set k v ps)]> (heap s)))
          else Unmodelled
      | _ => Unmodelled
      end
  | _ => Unmodelled
  end.

Definition set_index (vo : rval) (i : nat) (v : rval) (s : state W)
  : result W rval :=
  match vo with
  | RRef l =>
      match heap s !! l with
      | Some (OArr items) =>
          if (i <? length items)%nat
          then Ok v (with_heap s (<[l := OArr (<[i := v]> items)]> (heap s)))
          else if (i =? length items)%nat
          then Ok v (with_heap s (<[l := OArr (items ++ [v])]> (heap s)))
          else Unmodelled
      | _ => Unmodelled
      end
  | _ => Unmodelled
  end.

(** Expressions.  A literal array or object evaluates its parts and then
    becomes a new object of the heap.  A call resolves the callee first
    (ReferenceError when the name is unbound), then evaluates the
    arguments, then checks that the callee is a function (TypeError
    otherwise) and calls it.  An assignment to a name binds it, as in a
    script that is not in strict mode. *)
Fixpoint eval_expr (e : expr) (s : state W) {struct e} : result W rval :=
  match e with
  | EStr str => Ok (RStr str) s
  | EArr es =>
      bind (eval_list eval_expr es s) (fun vs s1 => alloc (OArr vs) s1)
  | EObj fs =>
      bind (eval_fields eval_expr fs [] s) (fun ps s1 => alloc (OObj ps) s1)
  | EVar x =>
      if fixed_global x then Unmodelled else
      match globals s !! x with
      | None => Err (ReferenceError x) s
      | Some v => Ok v s
      end
  | ECall f args =>
      if fixed_global f then Unmodelled else
      match globals s !! f with
      | None => Err (ReferenceError f) s
      | Some c =>
          bind (eval_list eval_expr args s) (fun vs s1 => call f c vs s1)
      end
  | EAssign x e1 =>
      if fixed_global x then Unmodelled else
      bind (eval_expr e1 s) (fun v s1 =>
      Ok v (State (<[x := v]> (globals s1)) (heap s1) (world s1) (calls s1)))
  | ESet o k e1 =>
      bind (eval_expr o s) (fun vo s1 =>
      bind (eval_expr e1 s1) (fun v s2 => set_prop vo k v s2))
  | EIdxSet o i e1 =>
      bind (eval_expr o s) (fun vo s1 =>
      bind (eval_expr e1 s1) (fun v s2 => set_index vo i v s2))
  end.

Definition of_result {A : Type} (r : result W A) (k : A -> state W -> outcome W)
  : outcome W :=
  match r with
  | Ok a s => k a s
  | Err x s => Failed x s
  | Hang => Hung
  | Unmodelled => Stuck
  end.

(** Statements and statement lists, with fuel for the loops.  Nothing
    catches an exception: it ends the script. *)
Fixpoint exec_stmt (fuel : nat) (st : stmt) (s : state W) : outcome W :=
  match fuel with
  | 0 => OutOfFuel
  | S n =>
      match st with
      | SExpr e => of_result (eval_expr e s) (fun _ s1 => Finished s1)
      | SIf c thn els =>
          of_result (eval_expr c s) (fun v s1 =>
            exec_block n (if truthy v then thn else els) s1)
      | SWhile c body =>
          of_result (eval_expr c s) (fun v s1 =>
            if truthy v then
              match exec_block n body s1 with
              | Finished s2 => exec_stmt n (SWhile c body) s2
              | o => o
              end
            else Finished s1)
      end
  end
with exec_block (fuel : nat) (ss : list stmt) (s : state W) : outcome W :=
  match fuel with
  | 0 => OutOfFuel
  | S n =>
      match ss with
      | [] => Finished s
      | st :: ss' =>
          match exec_stmt n st s with
          | Finished s1 => exec_block n ss' s1
          | o => o
          end
      end
  end.

(** Running a script is running its statements in order. *)
Definition run (fuel : nat) (prog : list stmt) (s : state W) : outcome W :=
  exec_block fuel prog s.
End Eval.

(** ** Reading the heap *)

(** What a run-time value reads as, as a whole, in a heap: the tree found
    by following the references, to depth [n].  A function is not part of
    any such tree. *)
Fixpoint snapshot (n : nat) (h : list object) (v : rval) : option value :=
  match n with
  | 0 => None
  | S n' =>
      match v with
      | RUndef => Some VUndef
      | RStr s => Some (VStr s)
      | RFun _ => None
      | RRef l =>
          match h !! l with
          | Some (OArr items) => VArr <$> mapM (snapshot n' h) items
          | Some (OObj ps) =>
              VObj <$> mapM (fun kv => pair kv.1 <$> snapshot n' h kv.2) ps
          | None => None
          end
      end
  end.

Definition reads_as (h : list object) (v : rval) (t : value) : Prop :=
  exists n, snapshot n h v = Some t.

(** [h'] holds every object that [h] holds at the locations from [b] on. *)
Definition agree_from (b : nat) (h h' : list object) : Prop :=
  forall l o, b <= l -> h !! l = Some o -> h' !! l = Some o.

(** Two property lists with the same keys, the values of the one reading
    as the values of the other. *)
Definition props_read (h : list object)
    (ps : list (string * rval)) (ts : list (string * value)) : Prop :=
  Forall2 (fun p q => p.1 = q.1 /\ reads_as h p.2 q.2) ps ts.

(** [v], with the objects [new] added to the heap of [s], is the table of
    the file: it reads as [sidebar_table] in every heap that holds these
    objects. *)
Definition table_at {W : Type} (s : state W) (v : rval) (new : list object) : Prop :=
  forall h', agree_from (length (heap s)) (heap s ++ new) h' ->
             reads_as h' v sidebar_table.

(** The function [f] of the page returns when it is called on the table
    in state [s]: it neither throws nor hangs. *)
Definition returns_on_table {W : Type}
    (page : fn -> list rval -> state W -> call_result W) (f : fn) (s : state W)
  : Prop :=
  forall v new, table_at s v new ->
    exists r s2, page f [v] (with_heap s (heap s ++ new)) = Returns r s2.

(** ** Shape of a script *)

Fixpoint is_literal (e : expr) : bool :=
  match e with
  | EStr _ => true
  | EArr es => forallb is_literal es
  | EObj fs => forallb (fun kv => is_literal kv.2) fs
  | _ => false
  end.

(** Calls and assignments inside an expression. *)
Fixpoint expr_calls (e : expr) : list string :=
  match e with
  | EStr _ | EVar _ => []
  | EArr es => flat_map expr_calls es
  | EObj fs => flat_map (fun kv => expr_calls kv.2) fs
  | ECall f args => f :: flat_map expr_calls args
  | EAssign _ e1 => expr_calls e1
  | ESet o _ e1 | EIdxSet o _ e1 => expr_calls o ++ expr_calls e1
  end.

Fixpoint expr_assigns (e : expr) : list string :=
  match e with
  | EStr _ | EVar _ => []
  | EArr es => flat_map expr_assigns es
  | EObj fs => flat_map (fun kv => expr_assigns kv.2) fs
  | ECall _ args => flat_map expr_assigns args
  | EAssign x e1 => x :: expr_assigns e1
  | ESet o _ e1 | EIdxSet o _ e1 => expr_assigns o ++ expr_assigns e1
  end.

(** Writes to a property of an object or an element of an array. *)
Fixpoint expr_writes (e : expr) : nat :=
  match e with
  | EStr _ | EVar _ => 0
  | EArr es => list_sum (map expr_writes es)
  | EObj fs => list_sum (map (fun kv => expr_writes kv.2) fs)
  | ECall _ args => list_sum (map expr_writes args)
  | EAssign _ e1 => expr_writes e1
  | ESet o _ e1 | EIdxSet o _ e1 => S (expr_writes o + expr_writes e1)
  end.

(** The same, and the number of branches and loops, through a statement. *)
Fixpoint stmt_calls (st : stmt) : list string :=
  match st with
  | SExpr e => expr_calls e
  | SIf c thn els => expr_calls c ++ flat_map stmt_calls thn ++ flat_map stmt_calls els
  | SWhile c body => expr_calls c ++ flat_map stmt_calls body
  end.

Fixpoint stmt_assigns (st : stmt) : list string :=
  match st with
  | SExpr e => expr_assigns e
  | SIf c thn els => expr_assigns c ++ flat_map stmt_assigns thn ++ flat_map stmt_assigns els
  | SWhile c body => expr_assigns c ++ flat_map stmt_assigns body
  end.

Fixpoint stmt_writes (st : stmt) : nat :=
  match st with
  | SExpr e => expr_writes e
  | SIf c thn els =>
      expr_writes c + list_sum (map stmt_writes thn) + list_sum (map stmt_writes els)
  | SWhile c body => expr_writes c + list_sum (map stmt_writes body)
  end.

Fixpoint stmt_branches (st : stmt) : nat :=
  match st with
  | SExpr _ => 0
  | SIf _ thn els => S (list_sum (map stmt_branches thn) + list_sum (map stmt_branches els))
  | SWhile _ body => list_sum (map stmt_branches body)
  end.

Fixpoint stmt_loops (st : stmt) : nat :=
  match st with
  | SExpr _ => 0
  | SIf _ thn els => list_sum (map stmt_loops thn) + list_sum (map stmt_loops els)
  | SWhile _ body => S (list_sum (map stmt_loops body))
  end.

(** ** Pages to run the file in *)

(** The state of a page that has bound [initSidebarItems] to its function
    0 and has nothing on the heap yet. *)
Definition page_state : state (list rval) :=
  State {["initSidebarItems" := RFun 0]} [] [] [].

(** A page whose function keeps the arguments it is given and returns. *)
Definition keeping_page (f : fn) (args : list rval) (s : state (list rval))
  : call_result (list rval) :=
  Returns RUndef (State (globals s) (heap s) (world s ++ args)%list (calls s)).

(** A page whose function throws. *)
Definition throwing_page (f : fn) (args : list rval) (s : state (list rval))
  : call_result (list rval) :=
  Throws (Thrown (RStr "sidebar is not ready")) s.

(** A page whose function clears the ["attr"] property of the object it is
    handed, [items["attr"] = undefined], and returns. *)
Definition clearing_page (f : fn) (args : list rval) (s : state (list rval))
  : call_result (list rval) :=
  match args with
  | [RRef l] =>
      match heap s !! l with
      | Some (OObj ps) =>
          Returns RUndef (with_heap s (<[l := OObj (obj_set "attr" RUndef ps)]> (heap s)))
      | _ => Returns RUndef s
      end
  | _ => Returns RUndef s
  end.

(** The states in which the file ends on the keeping and on the clearing
    page, and what the table reads as in the latter. *)
Definition page_loaded : state (list rval) :=
  Eval vm_compute in
    match run keeping_page 2 sidebar_items_js page_state with
    | Finished s => s
    | _ => page_state
    end.

Definition page_cleared : state (list rval) :=
  Eval vm_compute in
    match run clearing_page 2 sidebar_items_js page_state with
    | Finished s => s
    | _ => page_state
    end.

(** ** Plain text *)

(** A character that stands for itself between the double quotes of a
    JavaScript string: printable ASCII other than the double quote (34)
    and the backslash (92). *)
Definition plain_char (c : Ascii.ascii) : bool :=
  let n := Ascii.N_of_ascii c in
  (32 <=? n)%N && (n <=? 126)%N && negb (n =? 34)%N && negb (n =? 92)%N.

Fixpoint plain_string (str : string) : bool :=
  match str with
  | EmptyString => true
  | String c str' => plain_char c && plain_string str'
  end.

(** * Properties *)

(** ** Property lists *)

Lemma props_get_elem (k : string) (v : value) (ps : list (string * value)) :
  props_get k ps = Some v -> (k, v) ∈ ps.
Proof.
  induction ps as [|[k' v'] ps IH]; simpl; [done|].
  destruct (String.eqb_spec k k') as [->|Hne].
  - intros [= ->]. apply list_elem_of_here.
  - intros Hget. apply list_elem_of_further, IH, Hget.
Qed.

Lemma props_get_keys (k : string) (ps : list (string * value)) :
  is_Some (props_get k ps) <-> k ∈ ps.*1.
Proof.
  induction ps as [|[k' v'] ps IH]; simpl.
  - split; [intros [? [=]] | intros Hin; inversion Hin].
  - destruct (String.eqb_spec k k') as [->|Hne].
    + split; [intros _; apply list_elem_of_here | eauto].
    + rewrite IH, elem_of_cons. split; [by right | by intros [?|?]].
Qed.

Lemma obj_get_keys (t : value) (k : string) :
  is_Some (obj_get t k) <-> k ∈ obj_keys t.
Proof.
  destruct t; simpl; try apply props_get_keys;
    (split; [intros [? [=]] | intros Hin; inversion Hin]).
Qed.

(** ** The order *)

Lemma str_ltb_irrefl (a : string) : str_ltb a a = false.
Proof.
  induction a as [|c a IH]; simpl; [done|].
  by rewrite N.ltb_irrefl.
Qed.

Lemma str_ltb_trans (a b c : string) :
  str_ltb a b = true -> str_ltb b c = true -> str_ltb a c = true.
Proof.
  revert b c. induction a as [|x a IH]; intros [|y b] [|z c]; simpl; try done.
  destruct (N.ltb_spec (Ascii.N_of_ascii x) (Ascii.N_of_ascii y)) as [Hxy|Hxy];
  destruct (N.ltb_spec (Ascii.N_of_ascii y) (Ascii.N_of_ascii z)) as [Hyz|Hyz];
  destruct (N.ltb_spec (Ascii.N_of_ascii x) (Ascii.N_of_ascii z)) as [Hxz|Hxz];
  destruct (N.ltb_spec (Ascii.N_of_ascii y) (Ascii.N_of_ascii x)) as [Hyx|Hyx];
  destruct (N.ltb_spec (Ascii.N_of_ascii z) (Ascii.N_of_ascii y)) as [Hzy|Hzy];
  destruct (N.ltb_spec (Ascii.N_of_ascii z) (Ascii.N_of_ascii x)) as [Hzx|Hzx];
  try done; try lia.
  apply IH.
Qed.

#[local] Instance str_lt_trans : Transitive str_lt.
Proof. intros a b c. apply str_ltb_trans. Qed.

#[local] Instance str_lt_irrefl : Irreflexive str_lt.
Proof. intros a. unfold complement, str_lt. by rewrite str_ltb_irrefl. Qed.

Lemma ascending_Sorted (l : list string) :
  ascending l = true -> Sorted str_lt l.
Proof.
  induction l as [|a [|b l] IH]; intros Hasc.
  - constructor.
  - repeat constructor.
  - simpl in Hasc. apply andb_prop in Hasc as [Hab Hrest].
    constructor; [by apply IH | by constructor].
Qed.

Lemma ascending_StronglySorted (l : list string) :
  ascending l = true -> StronglySorted str_lt l.
Proof. intros Hasc. apply Sorted_StronglySorted; [apply _ | by apply ascending_Sorted]. Qed.

Lemma StronglySorted_lt_NoDup (l : list string) :
  StronglySorted str_lt l -> NoDup l.
Proof.
  induction 1 as [|a l Hl IH Hall]; constructor; [|done].
  intros Hin. rewrite Forall_forall in Hall.
  by apply (irreflexivity str_lt a), Hall.
Qed.

(** ** Reading the table by key *)

(** Whatever holds of each property of an object holds of every
    successful read of it. *)
Lemma obj_get_Forall (P : string -> value -> Prop) (ps : list (string * value)) :
  Forall (fun kv => P kv.1 kv.2) ps ->
  forall k v, obj_get (VObj ps) k = Some v -> P k v.
Proof.
  intros Hall k v Hget. simpl in Hget.
  apply props_get_elem in Hget.
  rewrite Forall_forall in Hall. apply (Hall (k, v) Hget).
Qed.

Ltac each_category :=
  apply obj_get_Forall; repeat apply Forall_cons_2; [..|apply Forall_nil_2]; simpl.

Lemma sidebar_keys : obj_keys sidebar_table = categories.
Proof. reflexivity. Qed.

Lemma categories_NoDup : NoDup categories.
Proof. apply (bool_decide_unpack _). vm_compute. exact I. Qed.

(** Each category lists its identifiers in increasing order. *)
Lemma idents_ascending (k : string) :
  is_Some (obj_get sidebar_table k) ->
  exists ids, idents sidebar_table k = Some ids /\ ascending ids = true.
Proof.
  intros [v Hget]. revert k v Hget.
  each_category; (eexists; split; [vm_compute; reflexivity | reflexivity]).
Qed.

(** C8: within every category of the table, the identifiers of the
    entries, read in the order listed, are strictly increasing in the
    code-unit order of strings: every identifier is smaller than all that
    follow it. *)
Theorem idents_strictly_sorted (k : string) :
  is_Some (obj_get sidebar_table k) ->
  exists ids, idents sidebar_table k = Some ids /\ StronglySorted str_lt ids.
Proof.
  intros Hk. destruct (idents_ascending k Hk) as (ids & Hids & Hasc).
  exists ids. split; [done|]. by apply ascending_StronglySorted.
Qed.

Lemma idents_strictly_sorted_witness :
  is_Some (obj_get sidebar_table "struct") /\
  exists ids, idents sidebar_table "struct" = Some ids /\ StronglySorted str_lt ids.
Proof.
  assert (Hk : is_Some (obj_get sidebar_table "struct")) by (vm_compute; eauto).
  split; [exact Hk | exact (idents_strictly_sorted "struct" Hk)].
Defined.

(** The two orderings the sidebar shows where a capital and a small letter
    meet. *)
Example DispatchList_before_Dispatcher :
  str_lt "DispatchList" "Dispatcher" /\ str_lt "DispatchResult" "DispatchableFn".
Proof. split; reflexivity. Qed.

(** C2: within every category of the table, the identifiers (the first
    elements of the entries) are pairwise distinct. *)
Theorem idents_unique_in_category (k : string) :
  is_Some (obj_get sidebar_table k) ->
  exists ids, idents sidebar_table k = Some ids /\ NoDup ids.
Proof.
  intros Hk. destruct (idents_ascending k Hk) as (ids & Hids & Hasc).
  exists ids. split; [done|].
  by apply StronglySorted_lt_NoDup, ascending_StronglySorted.
Qed.

Lemma idents_unique_in_category_witness :
  is_Some (obj_get sidebar_table "trait") /\
  exists ids, idents sidebar_table "trait" = Some ids /\ NoDup ids.
Proof.
  assert (Hk : is_Some (obj_get sidebar_table "trait")) by (vm_compute; eauto).
  split; [exact Hk | exact (idents_unique_in_category "trait" Hk)].
Defined.

(** ** Shape of the entries *)

Ltac entry_shape :=
  eexists _, _; split; [reflexivity|]; split; [discriminate|];
  first [left; discriminate | right; reflexivity].

(** Every category is an array of two-string arrays with a non-empty first
    string; the second string is empty only in [["contract",""]] under
    ["attr"]. *)
Lemma table_shape (k : string) (v : value) :
  obj_get sidebar_table k = Some v ->
  exists es, v = VArr es /\
    Forall (fun e => exists id d, e = VArr [VStr id; VStr d] /\ id <> "" /\
                     (d <> "" \/ (k, id, d) = ("attr", "contract", ""))) es.
Proof.
  revert k v. each_category;
    (eexists; split; [reflexivity|]);
    repeat apply Forall_cons_2; try apply Forall_nil_2; entry_shape.
Qed.

Lemma attr_entries :
  entries sidebar_table "attr" = Some [VArr [VStr "contract"; VStr ""]].
Proof. reflexivity. Qed.

(** C1, as the specification words it, fails: the entry [["contract",""]]
    of ["attr"] has an empty description. *)
Lemma contract_description_empty :
  ~ (forall k v, obj_get sidebar_table k = Some v ->
       exists es, v = VArr es /\
         forall e, e ∈ es ->
           exists id d, e = VArr [VStr id; VStr d] /\ id <> "" /\ d <> "").
Proof.
  intros Hall.
  destruct (Hall "attr" _ eq_refl) as (es & [= <-] & Hes).
  destruct (Hes _ (list_elem_of_here _ _)) as (id & d & [= <- <-] & _ & Hd).
  by apply Hd.
Qed.

(** C1 (amended): for every category present, every entry is a two-element
    array of strings (identifier, description) whose identifier is
    non-empty; the description is non-empty too, except for the entry
    [["contract",""]] of ["attr"]. *)
Theorem entries_are_pairs (k : string) (v : value) :
  obj_get sidebar_table k = Some v ->
  exists es, v = VArr es /\
    forall e, e ∈ es ->
      exists id d, e = VArr [VStr id; VStr d] /\ id <> "" /\
        (d <> "" \/ (k = "attr" /\ id = "contract" /\ d = "")).
Proof.
  intros Hget. destruct (table_shape k v Hget) as (es & -> & Hes).
  exists es. split; [done|]. intros e He.
  rewrite Forall_forall in Hes.
  destruct (Hes e He) as (id & d & -> & Hid & [Hd|[= -> -> ->]]); eauto 10.
Qed.

Lemma entries_are_pairs_witness :
  obj_get sidebar_table "attr" = Some (VArr [VArr [VStr "contract"; VStr ""]]) /\
  exists es, VArr [VArr [VStr "contract"; VStr ""]] = VArr es /\
    forall e, e ∈ es ->
      exists id d, e = VArr [VStr id; VStr d] /\ id <> "" /\
        (d <> "" \/ ("attr" = "attr" /\ id = "contract" /\ d = "")).
Proof.
  split; [reflexivity|].
  apply (entries_are_pairs "attr"). reflexivity.
Defined.

(** C10: every identifier of the table is a non-empty string, while a
    description may be empty: the only entry of ["attr"] is
    [["contract",""]]. *)
Theorem idents_nonempty :
  (forall k es e, entries sidebar_table k = Some es -> e ∈ es ->
     exists id d, e = VArr [VStr id; VStr d] /\ id <> "") /\
  entries sidebar_table "attr" = Some [VArr [VStr "contract"; VStr ""]] /\
  entry_desc (VArr [VStr "contract"; VStr ""]) = Some "".
Proof.
  split; [|split; reflexivity].
  intros k es e Hes He. unfold entries in Hes.
  destruct (obj_get sidebar_table k) as [v|] eqn:Hget; [|done].
  destruct (table_shape k v Hget) as (es' & -> & Hall).
  simpl in Hes. injection Hes as ->.
  rewrite Forall_forall in Hall.
  destruct (Hall e He) as (id & d & -> & Hid & _). eauto.
Qed.

Lemma idents_nonempty_witness :
  exists id d, VArr [VStr "Env"; VStr "Allows to directly access the environment mutably."]
               = VArr [VStr id; VStr d] /\ id <> "".
Proof.
  destruct idents_nonempty as [Hall _].
  eapply (Hall "trait"); [reflexivity|].
  do 2 apply list_elem_of_further. apply list_elem_of_here.
Defined.

(** ** The keys *)

(** C3, as the specification words it, fails: no set of four keys is the
    key set of the table. *)
Lemma not_four_keys :
  ~ exists ks : list string,
      length ks = 4 /\ forall k, is_Some (obj_get sidebar_table k) <-> k ∈ ks.
Proof.
  intros (ks & Hlen & Hks).
  assert (Hsub : categories ⊆+ ks).
  { apply NoDup_submseteq; [apply categories_NoDup|].
    intros k Hk. apply Hks, obj_get_keys. by rewrite sidebar_keys. }
  apply submseteq_length in Hsub. simpl in Hsub. lia.
Qed.

(** C3 (amended): the table is a mapping from exactly five fixed category
    keys, ["attr"], ["enum"], ["struct"], ["trait"] and ["type"], to
    ordered sequences of two-element (name, description) arrays. *)
Theorem five_categories :
  obj_keys sidebar_table = ["attr"; "enum"; "struct"; "trait"; "type"] /\
  NoDup (obj_keys sidebar_table) /\
  length (obj_keys sidebar_table) = 5 /\
  (forall k, is_Some (obj_get sidebar_table k) <-> k ∈ obj_keys sidebar_table) /\
  (forall k, k ∈ obj_keys sidebar_table ->
     exists es, obj_get sidebar_table k = Some (VArr es) /\
       Forall (fun e => exists id d, e = VArr [VStr id; VStr d]) es).
Proof.
  split; [reflexivity|]. split; [apply categories_NoDup|]. split; [reflexivity|].
  split; [intros k; apply obj_get_keys|].
  intros k Hk. apply obj_get_keys in Hk as [v Hget].
  destruct (table_shape k v Hget) as (es & -> & Hall).
  exists es. split; [done|].
  eapply Forall_impl; [exact Hall|]. intros e (id & d & -> & _). eauto.
Qed.

Lemma five_categories_witness :
  "type" ∈ obj_keys sidebar_table /\
  exists es, obj_get sidebar_table "type" = Some (VArr es) /\
    Forall (fun e => exists id d, e = VArr [VStr id; VStr d]) es.
Proof.
  assert (Hk : "type" ∈ obj_keys sidebar_table)
    by (apply obj_get_keys; vm_compute; eauto).
  split; [exact Hk|].
  destruct five_categories as (_ & _ & _ & _ & Hall). exact (Hall "type" Hk).
Defined.

(** C4: every category key of the table is one of ["attr"], ["enum"],
    ["struct"], ["trait"], ["type"], and each key maps to a list of
    (identifier, description) pairs. *)
Theorem keys_among_categories (k : string) (v : value) :
  obj_get sidebar_table k = Some v ->
  k ∈ ["attr"; "enum"; "struct"; "trait"; "type"] /\
  exists es, v = VArr es /\
    Forall (fun e => exists id d, e = VArr [VStr id; VStr d]) es.
Proof.
  intros Hget. split.
  - change (k ∈ obj_keys sidebar_table). apply obj_get_keys. eauto.
  - destruct (table_shape k v Hget) as (es & -> & Hall).
    exists es. split; [done|].
    eapply Forall_impl; [exact Hall|]. intros e (id & d & -> & _). eauto.
Qed.

Lemma keys_among_categories_witness :
  "enum" ∈ ["attr"; "enum"; "struct"; "trait"; "type"] /\
  exists es,
    VArr [VArr [VStr "DispatchError"; VStr "A dispatch error."];
          VArr [VStr "DispatchMode"; VStr "The contract dispatch mode."]] = VArr es /\
    Forall (fun e => exists id d, e = VArr [VStr id; VStr d]) es.
Proof. apply (keys_among_categories "enum"). reflexivity. Defined.

(** ** Identifiers across categories *)

(** In a duplicate-free concatenation, an element belongs to one segment
    only. *)
Lemma NoDup_mjoin_owner {A : Type} (ls : list (list A)) (i j : nat)
    (l1 l2 : list A) (x : A) :
  NoDup (mjoin ls) ->
  ls !! i = Some l1 -> ls !! j = Some l2 -> x ∈ l1 -> x ∈ l2 -> i = j.
Proof.
  revert i j. induction ls as [|l ls IH]; intros i j Hnd Hi Hj Hx1 Hx2; [done|].
  simpl in Hnd. apply NoDup_app in Hnd as (_ & Hdisj & Hrest).
  assert (Hin : forall n l', ls !! n = Some l' -> x ∈ l' -> x ∈ mjoin ls).
  { intros n l' Hn Hx. apply list_elem_of_join. exists l'. split; [done|].
    by apply list_elem_of_lookup_2 in Hn. }
  destruct i as [|i], j as [|j]; simpl in Hi, Hj.
  - done.
  - injection Hi as <-. destruct (Hdisj x Hx1). by eapply Hin.
  - injection Hj as <-. destruct (Hdisj x Hx2). by eapply Hin.
  - f_equal. by apply IH.
Qed.

Lemma all_idents_NoDup :
  exists ids, all_idents sidebar_table = Some ids /\ NoDup ids.
Proof.
  eexists. split; [vm_compute; reflexivity|].
  apply (bool_decide_unpack _). vm_compute. exact I.
Qed.

(** C9: the identifiers are pairwise distinct across the whole table: the
    list of all identifiers has no duplicate, and no name is listed under
    two different categories. *)
Theorem idents_unique_in_table :
  (exists ids, all_idents sidebar_table = Some ids /\ NoDup ids) /\
  (forall k1 k2 ids1 ids2 x,
     idents sidebar_table k1 = Some ids1 -> idents sidebar_table k2 = Some ids2 ->
     x ∈ ids1 -> x ∈ ids2 -> k1 = k2).
Proof.
  split; [apply all_idents_NoDup|].
  intros k1 k2 ids1 ids2 x H1 H2 Hx1 Hx2.
  destruct all_idents_NoDup as (ids & Hall & Hnd).
  unfold all_idents in Hall.
  destruct (mapM (idents sidebar_table) (obj_keys sidebar_table)) as [idss|] eqn:Hmap;
    [|done].
  injection Hall as <-. apply mapM_Some in Hmap.
  assert (Hkey : forall k l, idents sidebar_table k = Some l ->
            exists i, obj_keys sidebar_table !! i = Some k /\ idss !! i = Some l).
  { intros k l Hk.
    assert (Hin : k ∈ obj_keys sidebar_table).
    { apply obj_get_keys. unfold idents, entries in Hk.
      destruct (obj_get sidebar_table k); [eauto|done]. }
    apply list_elem_of_lookup in Hin as [i Hi]. exists i. split; [done|].
    destruct (Forall2_lookup_l _ _ _ _ _ Hmap Hi) as (l' & Hl' & Hk').
    congruence. }
  destruct (Hkey _ _ H1) as (i & Hi & Hli), (Hkey _ _ H2) as (j & Hj & Hlj).
  assert (i = j) as -> by (by eapply NoDup_mjoin_owner).
  congruence.
Qed.

Lemma idents_unique_in_table_witness :
  idents sidebar_table "enum" = Some ["DispatchError"; "DispatchMode"] /\
  "DispatchMode" ∈ ["DispatchError"; "DispatchMode"] /\
  "enum" = "enum".
Proof.
  assert (Hids : idents sidebar_table "enum" = Some ["DispatchError"; "DispatchMode"])
    by reflexivity.
  assert (Hin : "DispatchMode" ∈ ["DispatchError"; "DispatchMode"])
    by (apply list_elem_of_further, list_elem_of_here).
  split; [exact Hids|]. split; [exact Hin|].
  exact (proj2 idents_unique_in_table "enum" "enum" _ _ "DispatchMode" Hids Hids Hin Hin).
Defined.

(** ** Reading the heap *)

Lemma snapshot_fuel (n m : nat) (h : list object) (v : rval) (t : value) :
  snapshot n h v = Some t -> n <= m -> snapshot m h v = Some t.
Proof.
  revert m v t. induction n as [|n IH]; intros m v t Hs Hle; [done|].
  destruct m as [|m]; [lia|]. simpl in *.
  destruct v as [|str|l|f]; try done.
  destruct (h !! l) as [[items|ps]|]; try done.
  - apply fmap_Some in Hs as (ts & Hm & ->). apply fmap_Some.
    exists ts. split; [|done]. apply mapM_Some. apply mapM_Some in Hm.
    eapply Forall2_impl; [exact Hm|]. intros x y Hxy. apply IH; [done|lia].
  - apply fmap_Some in Hs as (ts & Hm & ->). apply fmap_Some.
    exists ts. split; [|done]. apply mapM_Some. apply mapM_Some in Hm.
    eapply Forall2_impl; [exact Hm|]. intros [k x] y Hxy. simpl in *.
    apply fmap_Some in Hxy as (t' & Ht' & ->). apply fmap_Some.
    exists t'. split; [|done]. apply IH; [done|lia].
Qed.

(** Finitely many reads share a depth. *)
Lemma reads_as_items (h : list object) (vs : list rval) (ts : list value) :
  Forall2 (reads_as h) vs ts ->
  exists n, Forall2 (fun v t => snapshot n h v = Some t) vs ts.
Proof.
  induction 1 as [|v t vs ts [n Hn] _ [m Hm]]; [exists 0; constructor|].
  exists (n `max` m). constructor.
  - apply (snapshot_fuel n); [exact Hn|lia].
  - eapply Forall2_impl; [exact Hm|]. intros x y Hxy.
    apply (snapshot_fuel m); [exact Hxy|lia].
Qed.

Lemma reads_as_array (h : list object) (l : loc) (vs : list rval) (ts : list value) :
  h !! l = Some (OArr vs) ->
  Forall2 (reads_as h) vs ts ->
  reads_as h (RRef l) (VArr ts).
Proof.
  intros Hl Hall. destruct (reads_as_items h vs ts Hall) as [n Hn].
  exists (S n). simpl. rewrite Hl. apply fmap_Some. exists ts.
  split; [|done]. by apply mapM_Some.
Qed.

Lemma reads_as_object (h : list object) (l : loc)
    (ps : list (string * rval)) (ts : list (string * value)) :
  h !! l = Some (OObj ps) ->
  props_read h ps ts ->
  reads_as h (RRef l) (VObj ts).
Proof.
  intros Hl Hall.
  assert (Hvals : Forall2 (reads_as h) ps.*2 ts.*2).
  { clear Hl. induction Hall as [|p q ps ts [_ Hpq] _ IH]; simpl; constructor; done. }
  destruct (reads_as_items h _ _ Hvals) as [n Hn].
  exists (S n). simpl. rewrite Hl. apply fmap_Some. exists ts.
  split; [|done]. apply mapM_Some.
  clear Hvals Hl. induction Hall as [|[k v] [k' t] ps ts [Hk _] _ IH];
    simpl in *; [constructor|].
  apply Forall2_cons in Hn as [Hv Hn]. constructor; [|by apply IH].
  simpl. rewrite Hv. simpl. by rewrite Hk.
Qed.

Lemma props_read_set (h : list object) (k : string) (v : rval) (t : value)
    (ps : list (string * rval)) (ts : list (string * value)) :
  props_read h ps ts -> reads_as h v t ->
  props_read h (obj_set k v ps) (obj_set k t ts).
Proof.
  intros Hall Hv. induction Hall as [|[k1 v1] [k2 t2] ps ts [Hk Hpq] Hrest IH]; simpl.
  - by repeat constructor.
  - simpl in Hk. subst k2. destruct (String.eqb k k1).
    + constructor; [done|exact Hrest].
    + constructor; [done|exact IH].
Qed.

Lemma agree_from_prefix (b : nat) (h x h' : list object) :
  agree_from b (h ++ x) h' -> agree_from b h h'.
Proof. intros Hag l o Hb Hl. apply Hag; [done|]. by apply lookup_app_l_Some. Qed.

Lemma agree_from_le (b c : nat) (h h' : list object) :
  agree_from b h h' -> b <= c -> agree_from c h h'.
Proof. intros Hag Hbc l o Hc Hl. apply Hag; [lia|done]. Qed.

(** ** Evaluating a literal *)

Section Run.
Context {W : Type}.
Variable page : fn -> list rval -> state W -> call_result W.
Implicit Types (s : state W) (h : list object).

Lemma with_heap_heap s : with_heap s (heap s) = s.
Proof. by destruct s. Qed.

Lemma lookup_new h (new : list object) (o : object) :
  (h ++ new ++ [o]) !! length (h ++ new) = Some o.
Proof. rewrite app_assoc. apply list_lookup_middle. done. Qed.

(** A literal with a value evaluates, in every state, to a run-time value
    that reads as that value.  It only adds objects to the heap, and the
    value is read from these alone: it reads the same in every heap that
    holds them. *)
Lemma eval_literal (e : expr) (t : value) :
  lit_value e = Some t ->
  forall s, exists v new,
    eval_expr page e s = Ok v (with_heap s (heap s ++ new)) /\
    forall h', agree_from (length (heap s)) (heap s ++ new) h' -> reads_as h' v t.
Proof.
  revert t.
  induction e as [str|es IH|fs IH|x|f args IH|x a IH|o k a IHo IHa|o i a IHo IHa]
    using expr_nested_ind; simpl; intros t Hlit s; try discriminate.
  - injection Hlit as <-. exists (RStr str), []. split.
    + by rewrite app_nil_r, with_heap_heap.
    + intros h' _. by exists 1.
  - apply fmap_Some in Hlit as (ts & Hts & ->).
    assert (Hlist : exists vs new,
      eval_list (eval_expr page) es s = Ok vs (with_heap s (heap s ++ new)) /\
      forall h', agree_from (length (heap s)) (heap s ++ new) h' ->
                 Forall2 (reads_as h') vs ts).
    { revert ts Hts s. induction IH as [|a es Ha _ IHes]; simpl; intros ts Hts s.
      - injection Hts as <-. exists [], []. split.
        + by rewrite app_nil_r, with_heap_heap.
        + intros h' _. constructor.
      - destruct (lit_value a) as [t1|] eqn:Ht1; [|done].
        destruct (lit_items lit_value es) as [ts'|] eqn:Hts'; [|done].
        injection Hts as <-.
        destruct (Ha t1 eq_refl s) as (v & new1 & Hev & Hread).
        destruct (IHes ts' eq_refl (with_heap s (heap s ++ new1)))
          as (vs & new2 & Hevs & Hreads).
        exists (v :: vs), (new1 ++ new2). rewrite Hev. simpl. rewrite Hevs. simpl.
        split; [by rewrite app_assoc|].
        intros h' Hag. rewrite app_assoc in Hag. constructor.
        + by apply Hread, (agree_from_prefix _ _ new2).
        + apply Hreads. simpl. eapply agree_from_le; [exact Hag|].
          rewrite length_app. lia. }
    destruct Hlist as (vs & new & Hev & Hread).
    exists (RRef (length (heap s ++ new))), (new ++ [OArr vs]).
    rewrite Hev. simpl. split; [by rewrite app_assoc|].
    intros h' Hag. apply (reads_as_array h' _ vs).
    + apply Hag; [rewrite length_app; lia | apply lookup_new].
    + apply Hread. rewrite app_assoc in Hag. by apply (agree_from_prefix _ _ [OArr vs]).
  - apply fmap_Some in Hlit as (ts & Hts & ->).
    assert (Hprops : forall acc tacc s,
      lit_props lit_value fs tacc = Some ts ->
      exists ps new,
        eval_fields (eval_expr page) fs acc s = Ok ps (with_heap s (heap s ++ new)) /\
        forall h', agree_from (length (heap s)) (heap s ++ new) h' ->
                   props_read h' acc tacc -> props_read h' ps ts).
    { clear Hts s. induction IH as [|[k a] fs Ha _ IHfs]; simpl; intros acc tacc s Hts.
      - injection Hts as <-. exists acc, []. split.
        + by rewrite app_nil_r, with_heap_heap.
        + by intros h' _ Hacc.
      - destruct (ordinary_key k); [|done].
        destruct (lit_value a) as [t1|] eqn:Ht1; [|done].
        destruct (Ha t1 Ht1 s) as (v & new1 & Hev & Hread). simpl in Hev.
        destruct (IHfs (obj_set k v acc) (obj_set k t1 tacc)
                       (with_heap s (heap s ++ new1)) Hts)
          as (ps & new2 & Hevs & Hreads).
        exists ps, (new1 ++ new2). rewrite Hev. simpl. rewrite Hevs. simpl.
        split; [by rewrite app_assoc|].
        intros h' Hag Hacc. rewrite app_assoc in Hag. apply Hreads.
        + simpl. eapply agree_from_le; [exact Hag|]. rewrite length_app. lia.
        + apply props_read_set; [done|].
          by apply Hread, (agree_from_prefix _ _ new2). }
    destruct (Hprops [] [] s Hts) as (ps & new & Hev & Hread).
    exists (RRef (length (heap s ++ new))), (new ++ [OObj ps]).
    rewrite Hev. simpl. split; [by rewrite app_assoc|].
    intros h' Hag. apply (reads_as_object h' _ ps).
    + apply Hag; [rewrite length_app; lia | apply lookup_new].
    + apply Hread; [|constructor].
      rewrite app_assoc in Hag. by apply (agree_from_prefix _ _ [OObj ps]).
Qed.

Lemma table_lit_value : lit_value table_lit = Some sidebar_table.
Proof. reflexivity. Qed.

(** A call with one argument, and a script of one statement, step by
    step. *)
Lemma eval_call1 (f : string) (a : expr) s :
  fixed_global f = false ->
  eval_expr page (ECall f [a]) s =
  match globals s !! f with
  | None => Err (ReferenceError f) s
  | Some c => bind (eval_expr page a s) (fun v s1 => call page f c [v] s1)
  end.
Proof.
  intros Hf. simpl. rewrite Hf. destruct (globals s !! f) as [c|]; [|done].
  by destruct (eval_expr page a s).
Qed.

Lemma run_single (n : nat) (e : expr) s :
  run page (S (S n)) [SExpr e] s
  = of_result (eval_expr page e s) (fun _ s1 => Finished s1).
Proof. unfold run. simpl. by destruct (eval_expr page e s). Qed.

Lemma run_needs_fuel (n : nat) s : n < 2 -> run page n sidebar_items_js s = OutOfFuel.
Proof. intros Hn. destruct n as [|[|n]]; [done|done|lia]. Qed.

(** What the file does in any state, given fuel for its one statement:
    it builds the table and hands it to whatever [initSidebarItems] is
    bound to. *)
Lemma run_sidebar_items (n : nat) s :
  exists v new,
    table_at s v new /\
    run page (S (S n)) sidebar_items_js s =
    match globals s !! "initSidebarItems" with
    | None => Failed (ReferenceError "initSidebarItems") s
    | Some (RFun f) =>
        match page f [v] (with_heap s (heap s ++ new)) with
        | Returns r s2 =>
            Finished (with_calls s2 (calls s ++ [("initSidebarItems", [v])]))
        | Throws x s2 =>
            Failed x (with_calls s2 (calls s ++ [("initSidebarItems", [v])]))
        | NeverReturns => Hung
        end
    | Some _ =>
        Failed (TypeError "initSidebarItems") (with_heap s (heap s ++ new))
    end.
Proof.
  destruct (eval_literal table_lit sidebar_table table_lit_value s)
    as (v & new & Hev & Hread).
  exists v, new. split; [exact Hread|].
  unfold sidebar_items_js. rewrite run_single, eval_call1, Hev by reflexivity.
  destruct (globals s !! "initSidebarItems") as [[|str|l|f]|];
    simpl; try reflexivity.
  destruct (page f [v] (with_heap s (heap s ++ new))); reflexivity.
Qed.
End Run.

(** ** Running the file *)

(** C5: the file is one statement, a call of [initSidebarItems] on one
    argument that is a literal; it contains no other call, no assignment,
    no branch and no loop; the literal has the same value in every state;
    and running the file does that one call and nothing else. *)
Theorem single_call_of_literal :
  (exists arg, sidebar_items_js = [SExpr (ECall "initSidebarItems" [arg])] /\
     is_literal arg = true /\
     lit_value arg = Some sidebar_table /\
     forall (W : Type) (page : fn -> list rval -> state W -> call_result W)
            (s : state W),
       exists v new, eval_expr page arg s = Ok v (with_heap s (heap s ++ new)) /\
                     table_at s v new) /\
  length sidebar_items_js = 1 /\
  flat_map stmt_calls sidebar_items_js = ["initSidebarItems"] /\
  flat_map stmt_assigns sidebar_items_js = [] /\
  list_sum (map stmt_writes sidebar_items_js) = 0 /\
  list_sum (map stmt_branches sidebar_items_js) = 0 /\
  list_sum (map stmt_loops sidebar_items_js) = 0 /\
  forall (W : Type) (page : fn -> list rval -> state W -> call_result W)
         (n : nat) (s : state W),
    exists v new,
      table_at s v new /\
      run page (S (S n)) sidebar_items_js s =
      match globals s !! "initSidebarItems" with
      | None => Failed (ReferenceError "initSidebarItems") s
      | Some (RFun f) =>
          match page f [v] (with_heap s (heap s ++ new)) with
          | Returns r s2 =>
              Finished (with_calls s2 (calls s ++ [("initSidebarItems", [v])]))
          | Throws x s2 =>
              Failed x (with_calls s2 (calls s ++ [("initSidebarItems", [v])]))
          | NeverReturns => Hung
          end
      | Some _ =>
          Failed (TypeError "initSidebarItems") (with_heap s (heap s ++ new))
      end.
Proof.
  split.
  { exists table_lit. split; [reflexivity|]. split; [reflexivity|].
    split; [apply table_lit_value|].
    intros W page s. apply eval_literal, table_lit_value. }
  do 6 (split; [reflexivity|]).
  intros W page n s. apply run_sidebar_items.
Qed.

(** C6, as the specification words it, fails: nothing keeps the function
    the table is handed to from changing it.  On the clearing page the
    file runs to the end, and the value it passed no longer reads as the
    table. *)
Lemma callee_can_change_table :
  ~ (forall (W : Type) (page : fn -> list rval -> state W -> call_result W)
            (fuel : nat) (s s' : state W) (v : rval),
       run page fuel sidebar_items_js s = Finished s' ->
       last (calls s') = Some ("initSidebarItems", [v]) ->
       reads_as (heap s') v sidebar_table).
Proof.
  intros Hall.
  destruct (Hall _ clearing_page 2 page_state page_cleared (RRef 34)) as [n Hn].
  - vm_compute. reflexivity.
  - vm_compute. reflexivity.
  - apply (snapshot_fuel _ (n `max` 4)) in Hn; [|lia].
    assert (H4 : exists t, snapshot 4 (heap page_cleared) (RRef 34) = Some t /\
                           obj_get t "attr" = Some VUndef)
      by (eexists; split; vm_compute; reflexivity).
    destruct H4 as (t & Ht & Hattr).
    apply (snapshot_fuel _ (n `max` 4)) in Ht; [|lia].
    rewrite Hn in Ht. injection Ht as <-. discriminate Hattr.
Qed.

(** C6 (amended): the file itself never changes the table.  It holds no
    assignment, no write to a property or an element, and no statement
    after its call; so whenever it runs to the end, it ends in the state
    the call of [initSidebarItems] returned, the table included.  What the
    callee was handed read as the table, and reads as the table at every
    later time at which the objects built for it are as they were: in
    particular at the end of the run, if the callee left them so. *)
Theorem table_never_mutated (W : Type)
    (page : fn -> list rval -> state W -> call_result W)
    (fuel : nat) (s s' : state W) :
  run page fuel sidebar_items_js s = Finished s' ->
  flat_map stmt_assigns sidebar_items_js = [] /\
  list_sum (map stmt_writes sidebar_items_js) = 0 /\
  tail sidebar_items_js = [] /\
  exists f v new r s2,
    globals s !! "initSidebarItems" = Some (RFun f) /\
    table_at s v new /\
    page f [v] (with_heap s (heap s ++ new)) = Returns r s2 /\
    s' = with_calls s2 (calls s ++ [("initSidebarItems", [v])]) /\
    (agree_from (length (heap s)) (heap s ++ new) (heap s2) ->
     reads_as (heap s') v sidebar_table).
Proof.
  intros Hrun. do 3 (split; [reflexivity|]).
  destruct (decide (fuel < 2)) as [Hlt|Hge].
  { by rewrite run_needs_fuel in Hrun. }
  destruct fuel as [|[|n]]; [lia|lia|].
  destruct (run_sidebar_items page n s) as (v & new & Htab & Heq).
  rewrite Heq in Hrun. clear Heq.
  destruct (globals s !! "initSidebarItems") as [[|str|l|f]|]; try discriminate.
  destruct (page f [v] (with_heap s (heap s ++ new))) as [r s2|x s2|] eqn:Hcall;
    try discriminate.
  injection Hrun as <-.
  exists f, v, new, r, s2. do 4 (split; [reflexivity || assumption|]).
  intros Hag. simpl. by apply Htab.
Qed.

Lemma table_never_mutated_witness :
  run keeping_page 2 sidebar_items_js page_state = Finished page_loaded /\
  exists f v new r s2,
    globals page_state !! "initSidebarItems" = Some (RFun f) /\
    table_at page_state v new /\
    keeping_page f [v] (with_heap page_state (heap page_state ++ new)) = Returns r s2 /\
    page_loaded = with_calls s2 (calls page_state ++ [("initSidebarItems", [v])]) /\
    (agree_from (length (heap page_state)) (heap page_state ++ new) (heap s2) ->
     reads_as (heap page_loaded) v sidebar_table).
Proof.
  assert (Hrun : run keeping_page 2 sidebar_items_js page_state = Finished page_loaded)
    by (vm_compute; reflexivity).
  split; [exact Hrun|].
  exact (proj2 (proj2 (proj2 (table_never_mutated _ keeping_page 2 _ _ Hrun)))).
Defined.

(** C7, as the specification words it, fails: a defined function can
    throw, and the file does not catch.  On the throwing page
    [initSidebarItems] is bound to a function and the run fails. *)
Lemma throwing_callee_fails :
  ~ (forall (W : Type) (page : fn -> list rval -> state W -> call_result W)
            (fuel : nat) (s : state W) (f : fn),
       globals s !! "initSidebarItems" = Some (RFun f) ->
       2 <= fuel ->
       exists s', run page fuel sidebar_items_js s = Finished s').
Proof.
  intros Hall.
  destruct (Hall _ throwing_page 2 page_state 0) as [s' Hs'].
  - vm_compute. reflexivity.
  - lia.
  - vm_compute in Hs'. discriminate Hs'.
Qed.

(** C7 (amended): evaluating the file cannot fail on its own account.
    Whenever [initSidebarItems] is bound to a function that returns when
    it is called on the table, the run, given fuel for the one statement,
    ends normally: it raises no error, does not hang, meets nothing
    outside the fragment and does not run out of fuel. *)
Theorem run_cannot_fail (W : Type)
    (page : fn -> list rval -> state W -> call_result W)
    (fuel : nat) (s : state W) (f : fn) :
  globals s !! "initSidebarItems" = Some (RFun f) ->
  returns_on_table page f s ->
  2 <= fuel ->
  (exists s', run page fuel sidebar_items_js s = Finished s') /\
  (forall x s', run page fuel sidebar_items_js s <> Failed x s') /\
  run page fuel sidebar_items_js s <> Hung /\
  run page fuel sidebar_items_js s <> Stuck /\
  run page fuel sidebar_items_js s <> OutOfFuel.
Proof.
  intros Hbound Hret Hfuel. destruct fuel as [|[|n]]; [lia|lia|].
  destruct (run_sidebar_items page n s) as (v & new & Htab & Heq).
  rewrite Heq, Hbound. clear Heq.
  destruct (Hret v new Htab) as (r & s2 & ->).
  split; [by eexists|]. repeat split; intros; discriminate.
Qed.

Lemma run_cannot_fail_witness :
  globals page_state !! "initSidebarItems" = Some (RFun 0) /\
  returns_on_table keeping_page 0 page_state /\
  2 <= 2 /\
  exists s', run keeping_page 2 sidebar_items_js page_state = Finished s'.
Proof.
  assert (Hbound : globals page_state !! "initSidebarItems" = Some (RFun 0))
    by (vm_compute; reflexivity).
  assert (Hret : returns_on_table keeping_page 0 page_state)
    by (intros v new _; eexists _, _; reflexivity).
  assert (Hfuel : 2 <= 2) by lia.
  split; [exact Hbound|]. split; [exact Hret|]. split; [exact Hfuel|].
  exact (proj1 (run_cannot_fail _ keeping_page 2 page_state 0 Hbound Hret Hfuel)).
Defined.

(** * Further properties of the file *)

(** ** When the call fails *)


(** ** More on the table *)

Ltac plain_entry :=
  eexists _, _; split; [reflexivity|]; split; reflexivity.

(** X5: every string of the table, key, identifier or description, is
    plain: printable ASCII with no double quote and no backslash.  So the
    text between the quotes of the file is the string itself, with no
    escape to decode, and each character is one code unit. *)
Theorem table_strings_plain (k : string) (v : value) :
  obj_get sidebar_table k = Some v ->
  plain_string k = true /\
  exists es, v = VArr es /\
    Forall (fun e => exists id d, e = VArr [VStr id; VStr d] /\
                     plain_string id = true /\ plain_string d = true) es.
Proof.
  revert k v. each_category;
    (split; [reflexivity|]; eexists; split; [reflexivity|]);
    repeat apply Forall_cons_2; try apply Forall_nil_2; plain_entry.
Qed.

Lemma table_strings_plain_witness :
  obj_get sidebar_table "attr" = Some (VArr [VArr [VStr "contract"; VStr ""]]) /\
  plain_string "attr" = true /\
  exists es, VArr [VArr [VStr "contract"; VStr ""]] = VArr es /\
    Forall (fun e => exists id d, e = VArr [VStr id; VStr d] /\
                     plain_string id = true /\ plain_string d = true) es.
Proof.
  split; [reflexivity|].
  apply (table_strings_plain "attr"). reflexivity.
Defined.

(** X6: the category keys themselves are listed in strictly ascending
    order, as the identifiers are within each category. *)
Theorem keys_strictly_sorted : StronglySorted str_lt (obj_keys sidebar_table).
Proof. by apply ascending_StronglySorted. Qed.

(** X7: no category that is present is empty: every key of the table
    lists at least one entry. *)
Theorem no_empty_category (k : string) (es : list value) :
  entries sidebar_table k = Some es -> es <> [].
Proof.
  unfold entries. destruct (obj_get sidebar_table k) as [v|] eqn:Hget; [|done].
  simpl. revert es. revert k v Hget.
  apply (obj_get_Forall (fun _ v => forall es, arr_items v = Some es -> es <> [])).
  repeat apply Forall_cons_2; try apply Forall_nil_2; by intros es [= <-].
Qed.

Lemma no_empty_category_witness :
  entries sidebar_table "attr" = Some [VArr [VStr "contract"; VStr ""]] /\
  [VArr [VStr "contract"; VStr ""]] <> [].
Proof.
  assert (Hattr : entries sidebar_table "attr" = Some [VArr [VStr "contract"; VStr ""]])
    by reflexivity.
  split; [exact Hattr | exact (no_empty_category "attr" _ Hattr)].
Defined.
